(** * DOLFIN: the scalar tensor (dolfin/la/Scalar.h) and the form interface
      (cpp/dolfin/fem/Form.h)

    A shallow embedding of [dolfin::Scalar], the rank-0 realisation of the
    [GenericTensor] interface, and of the coefficient and sizing queries of
    [dolfin::fem::Form].

    - A C++ [double] is an IEEE 754 binary64 number: Rocq's primitive [float],
      with [PrimFloat.add] for [+].  Sums are therefore the sums the machine
      computes, in the order the code computes them.
    - A method that can fail (an [assert], a call of [error], a read through
      a null pointer or past the end of an array) returns an [outcome].
    - Objects created by [new] live in a heap indexed by address, so that
      aliasing between a tensor and its copy can be stated.
    - The processes of an MPI group are the positions of a list, the rank of
      a process being its position. *)

From Stdlib Require Import PrimFloat ZArith NArith.
From stdpp Require Import gmap strings list.

Local Open Scope float_scope.

(** ** Failures and the error monad *)

Inductive failure : Type :=
| assertion_failed              (* an [assert(...)] whose condition is false *)
| runtime_error (msg : string)  (* raised by [error(msg)] *)
| null_dereference              (* [p[0]] where [p] is the null pointer *)
| out_of_bounds                 (* an index past the end of an array *)
| dangling_pointer.             (* a method called at an address holding no object *)

Inductive outcome (A : Type) : Type :=
| Ok (a : A)
| Fail (e : failure).
Arguments Ok {A} a.
Arguments Fail {A} e.

(** Sequencing stops at the first failure; [x ← c; k] is stdpp's notation
    for it. *)
#[global] Instance outcome_bind : MBind outcome := fun A B k c =>
  match c with
  | Ok a => k a
  | Fail e => Fail e
  end.
#[global] Instance outcome_ret : MRet outcome := @Ok.

(** [assert(cond)] *)
Definition assert (cond : bool) : outcome unit :=
  if cond then Ok tt else Fail assertion_failed.

(** Modelled from the spec: [error] is defined in dolfin/log/log.h, which
    Scalar.h only includes; an operation that calls it "fails", so [error]
    never returns to its caller and the statements after it are not run. *)
Definition error {A : Type} (msg : string) : outcome A :=
  Fail (runtime_error msg).

(** ** Pointers and arrays *)

(** A pointer to an array ([const double*], [const uint*]): null, or the
    cells it points to. *)
Definition pointer (A : Type) : Type := option (list A).

(** [p[0]] read. *)
Definition deref0 {A : Type} (p : pointer A) : outcome A :=
  match p with
  | None => Fail null_dereference
  | Some [] => Fail out_of_bounds
  | Some (x :: _) => Ok x
  end.

(** [p[0] = x] write; the outcome is the array after the write. *)
Definition store0 {A : Type} (p : pointer A) (x : A) : outcome (list A) :=
  match p with
  | None => Fail null_dereference
  | Some [] => Fail out_of_bounds
  | Some (_ :: rest) => Ok (x :: rest)
  end.

(** [v[i] = x] on a [std::vector]. *)
Definition vector_store {A : Type} (v : list A) (i : nat) (x : A) : outcome (list A) :=
  if decide (i < length v) then Ok (<[i := x]> v) else Fail out_of_bounds.

(** [std::accumulate(values.begin(), values.end(), init)]: a left fold with
    [+], starting from [init]. *)
Definition accumulate (values : list float) (init : float) : float :=
  fold_left PrimFloat.add values init.

(** ** The MPI collaborator *)

(** What one process sees of [dolfin::MPI] (dolfin/common/MPI.h, which
    Scalar.h only includes): the size of the group, its own rank, and the
    collective [gather], which takes the local buffer and gives back the
    buffer filled by the group. *)
Record MPI : Type := {
  num_processes : nat;
  process_number : nat;
  gather : list float -> list float
}.

(** Modelled from the spec: [MPI::gather] is the all-gather of the
    DistributedGroup collaborator, "allGather(localValue) -> sequence<value>
    ordered by rank".  The local value of rank [i] is slot [i] of the buffer
    rank [i] passes; every process receives the same sequence. *)
Definition all_gather (buffers : list (list float)) : list float :=
  imap (fun i buffer => default 0 (buffer !! i)) buffers.

Module la.

(** ** dolfin::Scalar *)

Record Scalar : Type := { value : float }.

(** [Scalar() : GenericTensor(), value(0.0)] *)
Definition Scalar_new : Scalar := {| value := 0.0 |}.

(** [resize(uint rank, const uint* dims)] *)
Definition resize (rank : N) (dims : pointer N) (this : Scalar) : outcome Scalar :=
  _ ← assert (rank =? 0)%N;
  Ok {| value := 0.0 |}.

(** [init(const GenericSparsityPattern&)]; the pattern is not read. *)
Definition init {Pattern : Type} (sparsity_pattern : Pattern) (this : Scalar) : Scalar :=
  {| value := 0.0 |}.

(** [rank()] *)
Definition rank (this : Scalar) : N := 0%N.

(** [size(uint dim)] *)
Definition size (dim : N) (this : Scalar) : outcome N :=
  error "The size() function is not available for scalars.".

(** [local_range(uint dim)] *)
Definition local_range (dim : N) (this : Scalar) : outcome (N * N) :=
  error "The size() function is not available for scalars.".

(** [get(double* block, const uint* num_rows, const uint* const* rows)];
    the outcome is the block after the call. *)
Definition get (block : pointer float) (num_rows : pointer N)
    (rows : pointer (pointer N)) (this : Scalar) : outcome (list float) :=
  store0 block (value this).

(** [set(const double* block, const uint* num_rows, const uint* const* rows)] *)
Definition set (block : pointer float) (num_rows : pointer N)
    (rows : pointer (pointer N)) (this : Scalar) : outcome Scalar :=
  b ← deref0 block;
  Ok {| value := b |}.

(** [add(const double* block, const uint* num_rows, const uint* const* rows)] *)
Definition add (block : pointer float) (num_rows : pointer N)
    (rows : pointer (pointer N)) (this : Scalar) : outcome Scalar :=
  _ ← assert (bool_decide (is_Some block));
  b ← deref0 block;
  Ok {| value := value this + b |}.

(** [add(const double* block, const std::vector<const std::vector<uint>*>& rows)] *)
Definition add_vector_of_pointers (block : pointer float)
    (rows : list (pointer N)) (this : Scalar) : outcome Scalar :=
  _ ← assert (bool_decide (is_Some block));
  b ← deref0 block;
  Ok {| value := value this + b |}.

(** [add(const double* block, const std::vector<std::vector<uint> >& rows)] *)
Definition add_vector_of_vectors (block : pointer float)
    (rows : list (list N)) (this : Scalar) : outcome Scalar :=
  _ ← assert (bool_decide (is_Some block));
  b ← deref0 block;
  Ok {| value := value this + b |}.

(** [zero()] *)
Definition zero (this : Scalar) : Scalar := {| value := 0.0 |}.

(** [apply(std::string mode)], run by the process that sees [mpi]. *)
Definition apply (mpi : MPI) (mode : string) (this : Scalar) : outcome Scalar :=
  if decide (1 < num_processes mpi) then
    (* Get values from other processes *)
    let values := replicate (num_processes mpi) 0.0 in
    values ← vector_store values (process_number mpi) (value this);
    let values := gather mpi values in
    (* Sum contribution from each process *)
    Ok {| value := accumulate values 0.0 |}
  else Ok this.

(** [operator double()] *)
Definition to_double (this : Scalar) : float := value this.

(** [operator= (double value)] *)
Definition assign (v : float) (this : Scalar) : Scalar := {| value := v |}.

(** [getval()] *)
Definition getval (this : Scalar) : float := value this.

(** *** The heap: [Scalar] objects by address *)

Abbreviation heap := (gmap positive Scalar).

(** [new Scalar()] *)
Definition new_Scalar (h : heap) : positive * heap :=
  let s := fresh (dom h) in (s, <[s := Scalar_new]> h).

(** A method that updates the object at address [this]. *)
Definition call (method : Scalar -> outcome Scalar) (this : positive) (h : heap)
    : outcome heap :=
  match h !! this with
  | None => Fail dangling_pointer
  | Some self => self' ← method self; Ok (<[this := self']> h)
  end.

(** A sequence of method calls at address [this], in order. *)
Fixpoint call_all (methods : list (Scalar -> outcome Scalar)) (this : positive)
    (h : heap) : outcome heap :=
  match methods with
  | [] => Ok h
  | method :: methods => h ← call method this h; call_all methods this h
  end.

(** [copy()]: [Scalar* s = new Scalar(); s->value = value; return s;] *)
Definition copy (this : positive) (h : heap) : outcome (positive * heap) :=
  match h !! this with
  | None => Fail dangling_pointer
  | Some self =>
      let '(s, h) := new_Scalar h in
      let h := alter (fun _ => {| value := value self |}) s h in
      Ok (s, h)
  end.

(** *** A group of processes *)

(** The buffer rank [r] of [P] builds before the gather:
    [std::vector<double> values(P); values[r] = value;] *)
Definition local_buffer (P r : nat) (this : Scalar) : list float :=
  <[r := value this]> (replicate P 0.0).

(** [MPI] as rank [r] sees it when every process of [group] is in [apply]:
    the gather combines the buffer rank [r] passes with the buffers its
    peers have built. *)
Definition world (group : list Scalar) (r : nat) : MPI :=
  {| num_processes := length group;
     process_number := r;
     gather := fun values =>
       all_gather (<[r := values]> (imap (local_buffer (length group)) group)) |}.

(** Every process of the group calls [apply], rank [r] with mode [modes r]. *)
Definition apply_all (modes : nat -> string) (group : list Scalar)
    : list (outcome Scalar) :=
  imap (fun r this => apply (world group r) (modes r) this) group.

(** A sequence of [add] calls, one block after the other. *)
Definition add_all (blocks : list (pointer float * pointer N * pointer (pointer N)))
    (this : Scalar) : outcome Scalar :=
  foldl (fun acc '(block, num_rows, rows) => self ← acc; add block num_rows rows self)
        (Ok this) blocks.

End la.

Module fem.

(** ** dolfin::fem::Form

    Form.h declares the class; the bodies of its methods are in Form.cpp.
    The record keeps the private members the coefficient lookups and the
    sizing query read, under the names Form.h gives them. *)

(** Modelled from the spec: the ArgumentSpace collaborator
    ([function::FunctionSpace], forward-declared in Form.h) "exposes max
    local degrees-of-freedom count". *)
Record FunctionSpace : Type := { max_element_dofs : N }.

(** Modelled from the spec: an entry of the CoefficientSet
    ([FormCoefficients], of FormCoefficients.h), a "(name,
    function-reference, original-position)" triple; the reference is the
    address of the function, if one is attached. *)
Record Coefficient : Type := {
  coefficient_name : string;
  coefficient_function : option positive;
  original_position : N
}.

Record Form : Type := {
  _coefficents : list Coefficient;
  _function_spaces : list FunctionSpace;
  (* [std::function<int(const char* )>], empty until set *)
  _coefficient_index_map : option (string -> Z);
  (* [std::function<const char* (int)>], empty until set *)
  _coefficient_name_map : option (Z -> string)
}.

(** The names of the registered coefficients, in registration order. *)
Definition coefficient_names (this : Form) : list string :=
  coefficient_name <$> _coefficents this.

(** [rank()] *)
Definition rank (this : Form) : nat := length (_function_spaces this).

(** Modelled from the spec: the body of [get_coefficient_index] is in
    Form.cpp.  "Consult an installed override resolver first, else the
    kernel descriptor's built-in map; return a NotFound signal (not silent
    default) when unmapped": [None] is that signal, and the built-in map
    sends a name to its position in the CoefficientSet. *)
Definition get_coefficient_index (name : string) (this : Form) : option Z :=
  match _coefficient_index_map this with
  | Some resolver => Some (resolver name)
  | None =>
      '(i, _) ← list_find (fun n => n = name) (coefficient_names this);
      Some (Z.of_nat i)
  end.

(** Modelled from the spec: the body of [get_coefficient_name] is in
    Form.cpp; same rule as [get_coefficient_index], the built-in map
    sending a position to the name registered there. *)
Definition get_coefficient_name (i : Z) (this : Form) : option string :=
  match _coefficient_name_map this with
  | Some resolver => Some (resolver i)
  | None =>
      if decide (0 <= i)%Z then coefficient_names this !! Z.to_nat i else None
  end.

(** Modelled from the spec: the body is in Form.cpp; the resolver handed
    over becomes the form's override for name-to-index lookups.  Form.h
    types the argument [std::function<int(const char* )>] and calls it
    [coefficient_index_map]. *)
Definition set_coefficient_index_to_name_map (coefficient_index_map : string -> Z)
    (this : Form) : Form :=
  {| _coefficents := _coefficents this;
     _function_spaces := _function_spaces this;
     _coefficient_index_map := Some coefficient_index_map;
     _coefficient_name_map := _coefficient_name_map this |}.


(** Modelled from the spec: the body of [max_element_tensor_size] is in
    Form.cpp.  "Product over all argument dimensions of each argument
    space's maximum local degrees-of-freedom count; for rank 0 this is 1":
    one factor per argument slot, multiplied in slot order from 1. *)
Definition max_element_tensor_size (this : Form) : N :=
  foldl (fun num_entries V => num_entries * max_element_dofs V)%N 1%N
        (_function_spaces this).

(** The product of a sequence of dof counts, as the mathematical product
    the sizing query is compared with. *)
Fixpoint product (dofs : list N) : N :=
  match dofs with
  | [] => 1
  | N_i :: rest => N_i * product rest
  end%N.

End fem.

(** * Properties of dolfin::Scalar *)

Section scalar_facts.
Implicit Types (this self : la.Scalar) (group : list la.Scalar).
Implicit Types (block : pointer float) (mode : string) (modes : nat -> string).

Lemma bind_Ok {A B : Type} (a : A) (k : A -> outcome B) : (Ok a ≫= k) = k a.
Proof. reflexivity. Qed.

Lemma assert_non_null {A : Type} (p : pointer A) (a : A) :
  deref0 p = Ok a -> assert (bool_decide (is_Some p)) = Ok tt.
Proof. destruct p as [cells|]; [reflexivity | discriminate]. Qed.

(** An [add] of a block whose first cell reads [b]. *)
Lemma add_reads_first block num_rows rows this (b : float) :
  deref0 block = Ok b ->
  la.add block num_rows rows this = Ok {| la.value := la.value this + b |}.
Proof.
  intros Hb. unfold la.add.
  rewrite (assert_non_null _ _ Hb), Hb. reflexivity.
Qed.

(** A run of [add] calls is a left fold of [+] over the first cells,
    starting from the value the run starts with. *)
Lemma add_all_fold blocks (firsts : list float) :
  Forall2 (fun call b => deref0 call.1.1 = Ok b) blocks firsts ->
  forall this,
    la.add_all blocks this = Ok {| la.value := accumulate firsts (la.value this) |}.
Proof.
  induction 1 as [|[[block num_rows] rows] b blocks firsts Hb _ IH]; intros this.
  - destruct this; reflexivity.
  - unfold la.add_all in *. cbn [foldl]. rewrite bind_Ok.
    cbn in Hb. rewrite (add_reads_first _ _ _ _ _ Hb).
    rewrite IH. reflexivity.
Qed.

Lemma local_buffer_own (P r : nat) this :
  r < P -> la.local_buffer P r this !! r = Some (la.value this).
Proof.
  intros Hr. unfold la.local_buffer.
  apply list_lookup_insert_eq. by rewrite length_replicate.
Qed.

(** The buffers the processes build, gathered: the values of the group in
    rank order. *)
Lemma all_gather_local_buffers group :
  all_gather (imap (la.local_buffer (length group)) group) = la.value <$> group.
Proof.
  apply list_eq; intros i. unfold all_gather.
  rewrite !list_lookup_imap, list_lookup_fmap.
  destruct (group !! i) as [s|] eqn:Hi; [|reflexivity].
  cbn. rewrite local_buffer_own; [reflexivity|].
  by eapply lookup_lt_Some.
Qed.

Lemma gather_world group (r : nat) this :
  group !! r = Some this ->
  gather (la.world group r) (la.local_buffer (length group) r this)
  = la.value <$> group.
Proof.
  intros Hr. cbn [gather la.world].
  rewrite list_insert_id; [apply all_gather_local_buffers|].
  by rewrite list_lookup_imap, Hr.
Qed.

(** [apply] at rank [r] of a group of more than one process. *)
Lemma apply_in_world group (r : nat) this mode :
  group !! r = Some this -> 1 < length group ->
  la.apply (la.world group r) mode this
  = Ok {| la.value := accumulate (la.value <$> group) 0 |}.
Proof.
  intros Hr HP. unfold la.apply. cbn [num_processes process_number la.world].
  rewrite decide_True by done.
  unfold vector_store. rewrite length_replicate.
  rewrite decide_True by (by eapply lookup_lt_Some).
  rewrite bind_Ok.
  change (<[r:=la.value this]> (replicate (length group) 0))
    with (la.local_buffer (length group) r this).
  by rewrite gather_world.
Qed.

(** [apply] where the group is a single process: [gather] is not called. *)
Lemma apply_alone (mpi : MPI) mode this :
  num_processes mpi <= 1 -> la.apply mpi mode this = Ok this.
Proof. intros HP. unfold la.apply. rewrite decide_False by lia. reflexivity. Qed.

Lemma apply_all_many modes group :
  1 < length group ->
  la.apply_all modes group
  = (fun _ => Ok {| la.value := accumulate (la.value <$> group) 0 |}) <$> group.
Proof.
  intros HP. apply list_eq; intros r. unfold la.apply_all.
  rewrite list_lookup_imap, list_lookup_fmap.
  destruct (group !! r) as [s|] eqn:Hr; [|reflexivity].
  cbn. by rewrite apply_in_world.
Qed.

Lemma apply_all_few modes group :
  length group <= 1 -> la.apply_all modes group = Ok <$> group.
Proof.
  intros HP. apply list_eq; intros r. unfold la.apply_all.
  rewrite list_lookup_imap, list_lookup_fmap.
  destruct (group !! r) as [s|]; [|reflexivity].
  cbn. by rewrite apply_alone.
Qed.

Lemma accumulate_zeros (n : nat) : accumulate (replicate n 0) 0 = 0.
Proof. induction n as [|n IH]; [reflexivity | exact IH]. Qed.

End scalar_facts.

(** C1. When every process of a group of [P] processes calls [apply]: if
    [P > 1], each rank receives from the gather the pre-apply values of the
    group in rank order, and its value becomes their sum, taken in rank
    order from [0.0], the same on every process; values [1.0], [2.0], [3.0]
    on ranks 0, 1, 2 give [6.0] everywhere.  If [P = 1] the value is left
    as it was, whatever the gather would have answered. *)
Theorem apply_sums_in_rank_order (modes : nat -> string) (group : list la.Scalar) :
  (1 < length group ->
     (forall r this, group !! r = Some this ->
        gather (la.world group r) (la.local_buffer (length group) r this)
        = la.value <$> group)
     /\ la.apply_all modes group
        = (fun _ => Ok {| la.value := accumulate (la.value <$> group) 0 |}) <$> group)
  /\ (length group = 1%nat -> la.apply_all modes group = Ok <$> group)
  /\ (forall (mpi : MPI) mode this,
        num_processes mpi = 1%nat -> la.apply mpi mode this = Ok this)
  /\ la.apply_all modes [ {| la.value := 1 |}; {| la.value := 2 |}; {| la.value := 3 |} ]
     = [ Ok {| la.value := 6 |}; Ok {| la.value := 6 |}; Ok {| la.value := 6 |} ].
Proof.
  split; [|split; [|split]].
  - intros HP. split.
    + intros r this Hr. by apply gather_world.
    + by apply apply_all_many.
  - intros HP. apply apply_all_few. lia.
  - intros mpi mode this Hmpi. apply apply_alone. lia.
  - rewrite apply_all_many by (cbn; lia). reflexivity.
Qed.

Lemma apply_sums_in_rank_order_witness :
  la.apply_all (fun _ => "add")
    [ {| la.value := 0.5 |}; {| la.value := 0.25 |} ]
  = [ Ok {| la.value := 0.75 |}; Ok {| la.value := 0.75 |} ]
  /\ la.apply_all (fun _ => "add") [ {| la.value := 7 |} ] = [ Ok {| la.value := 7 |} ]
  /\ la.apply {| num_processes := 1; process_number := 0; gather := fun _ => [] |}
       "add" {| la.value := 7 |} = Ok {| la.value := 7 |}.
Proof.
  split; [|split].
  - apply (proj1 (apply_sums_in_rank_order (fun _ => "add")
             [ {| la.value := 0.5 |}; {| la.value := 0.25 |} ])).
    simpl. lia.
  - apply (proj1 (proj2 (apply_sums_in_rank_order (fun _ => "add")
             [ {| la.value := 7 |} ]))).
    reflexivity.
  - apply (proj1 (proj2 (proj2 (apply_sums_in_rank_order (fun _ => "add") [])))).
    reflexivity.
Defined.

(** C4. A new [Scalar] holds [0.0]; an [add] of a block adds the block's
    first cell to the value; so on a new [Scalar], alone in its group, a run
    of [add] calls followed by [apply] leaves the sum of the first cells,
    taken in call order from [0.0]: [add(2.0); add(3.0); add(-1.0);
    apply("add")] leaves [4.0]. *)
Theorem add_then_apply_single_process
    (blocks : list (pointer float * pointer N * pointer (pointer N)))
    (firsts : list float) (mode : string) :
  Forall2 (fun call b => deref0 call.1.1 = Ok b) blocks firsts ->
  la.value la.Scalar_new = 0
  /\ (forall block num_rows rows this b,
        deref0 block = Ok b ->
        la.add block num_rows rows this = Ok {| la.value := la.value this + b |})
  /\ exists this,
       la.add_all blocks la.Scalar_new = Ok this
       /\ la.value this = accumulate firsts 0
       /\ la.apply_all (fun _ => mode) [this] = [Ok this].
Proof.
  intros Hblocks. split; [reflexivity|]. split.
  - intros block num_rows rows this b. apply add_reads_first.
  - eexists. split; [by apply add_all_fold|]. split; [reflexivity|].
    by apply apply_all_few.
Qed.

Lemma add_then_apply_single_process_witness :
  exists this,
    la.add_all [ (Some [2], None, None); (Some [3], None, None); (Some [-1], None, None) ]
               la.Scalar_new = Ok this
    /\ la.value this = 4
    /\ la.apply_all (fun _ => "add") [this] = [Ok this].
Proof.
  apply (add_then_apply_single_process
           [ (Some [2], None, None); (Some [3], None, None); (Some [-1], None, None) ]
           [2; 3; -1] "add").
  repeat constructor.
Defined.

(** C5. [resize(rank, dims)] on a [Scalar] fails, on its assertion
    [rank == 0], for every rank other than 0; with rank 0 it sets the value
    back to [0.0]. *)
Theorem resize_only_rank_0 (rank : N) (dims : pointer N) (this : la.Scalar) :
  (rank <> 0%N -> la.resize rank dims this = Fail assertion_failed)
  /\ la.resize 0 dims this = Ok {| la.value := 0 |}.
Proof.
  split; [|reflexivity].
  intros Hrank. unfold la.resize.
  destruct (N.eqb_spec rank 0) as [->|_]; [done | reflexivity].
Qed.

Lemma resize_only_rank_0_witness :
  la.resize 2 (Some [3; 3]%N) {| la.value := 1.5 |} = Fail assertion_failed.
Proof.
  apply (proj1 (resize_only_rank_0 2 (Some [3; 3]%N) {| la.value := 1.5 |})).
  discriminate.
Defined.

(** C6. On a [Scalar], [size(dim)] and [local_range(dim)] fail, through
    [error], for every dimension [dim]. *)
Theorem size_and_local_range_fail (dim : N) (this : la.Scalar) :
  la.size dim this
    = Fail (runtime_error "The size() function is not available for scalars.")
  /\ la.local_range dim this
    = Fail (runtime_error "The size() function is not available for scalars.").
Proof. split; reflexivity. Qed.

(** C7. The three overloads of [add] do the same: on the same block and the
    same tensor they give the same outcome whatever index arguments they are
    given, and when the block's first cell reads [b] that outcome is the
    tensor with [b] added to its value. *)
Theorem add_overloads_agree (block : pointer float) (this : la.Scalar)
    (num_rows : pointer N) (rows : pointer (pointer N))
    (rows_p : list (pointer N)) (rows_v : list (list N)) :
  la.add_vector_of_pointers block rows_p this = la.add block num_rows rows this
  /\ la.add_vector_of_vectors block rows_v this = la.add block num_rows rows this
  /\ (forall num_rows' rows',
        la.add block num_rows' rows' this = la.add block num_rows rows this)
  /\ (forall b, deref0 block = Ok b ->
        la.add block num_rows rows this = Ok {| la.value := la.value this + b |}).
Proof.
  repeat split; try reflexivity.
  intros b. apply add_reads_first.
Qed.

Lemma add_overloads_agree_witness :
  la.add (Some [2.5; 9]) (Some [1%N]) (Some [Some [4%N]]) {| la.value := 1 |}
  = Ok {| la.value := 3.5 |}.
Proof.
  apply (proj2 (proj2 (proj2 (add_overloads_agree (Some [2.5; 9]) {| la.value := 1 |}
           (Some [1%N]) (Some [Some [4%N]]) [] []))) 2.5).
  reflexivity.
Defined.

(** C9. [zero()] sets the value to [0.0]; when every process of a group
    calls [zero()] and then [apply], every process ends with [0.0],
    whatever the values were before. *)
Theorem zero_then_apply (modes : nat -> string) (group : list la.Scalar) :
  (forall this, la.value (la.zero this) = 0)
  /\ la.apply_all modes (la.zero <$> group)
     = (fun _ => Ok {| la.value := 0 |}) <$> group.
Proof.
  split; [reflexivity|].
  assert (Hvalues : la.value <$> (la.zero <$> group) = replicate (length group) 0).
  { induction group as [|s group IH]; [reflexivity | cbn; by rewrite IH]. }
  destruct (decide (1 < length group)) as [HP|HP].
  - rewrite apply_all_many by (by rewrite length_fmap).
    rewrite Hvalues, accumulate_zeros.
    clear. induction group as [|s group IH]; [reflexivity | cbn; by rewrite IH].
  - rewrite apply_all_few by (rewrite length_fmap; lia).
    clear. induction group as [|s group IH]; [reflexivity | cbn; by rewrite IH].
Qed.

(** C10. [apply] does not read its mode: whatever modes the processes of a
    group pass, the outcome on every process is the same; and so is the
    outcome of one process under any [MPI]. *)
Theorem apply_ignores_mode (modes1 modes2 : nat -> string) (group : list la.Scalar) :
  la.apply_all modes1 group = la.apply_all modes2 group
  /\ forall (mpi : MPI) (m1 m2 : string) (this : la.Scalar),
       la.apply mpi m1 this = la.apply mpi m2 this.
Proof. split; reflexivity. Qed.

Section copy_facts.
Implicit Types (h : la.heap) (this s : positive) (self : la.Scalar).

Lemma new_Scalar_fresh h : h !! (la.new_Scalar h).1 = None.
Proof. apply not_elem_of_dom, is_fresh. Qed.

Lemma copy_Ok h this self :
  h !! this = Some self ->
  la.copy this h
  = Ok (fresh (dom h),
        <[fresh (dom h) := {| la.value := la.value self |}]> h).
Proof.
  intros Hthis. unfold la.copy, la.new_Scalar. rewrite Hthis. cbn.
  f_equal. f_equal. apply map_eq; intros p.
  destruct (decide (fresh (dom h) = p)) as [<-|Hp].
  - by rewrite lookup_alter_eq, !lookup_insert_eq.
  - by rewrite lookup_alter_ne, !lookup_insert_ne.
Qed.

Lemma call_other (method : la.Scalar -> outcome la.Scalar) h h' this s :
  la.call method this h = Ok h' -> s <> this -> h' !! s = h !! s.
Proof.
  unfold la.call. intros Hcall Hs.
  destruct (h !! this) as [self|]; [|discriminate].
  destruct (method self) as [self'|e]; [|discriminate].
  cbn in Hcall. injection Hcall as <-. by rewrite lookup_insert_ne.
Qed.

Lemma call_all_other (methods : list (la.Scalar -> outcome la.Scalar)) this s :
  s <> this ->
  forall h h', la.call_all methods this h = Ok h' -> h' !! s = h !! s.
Proof.
  intros Hs. induction methods as [|method methods IH]; intros h h' Hcalls.
  - cbn in Hcalls. by injection Hcalls as <-.
  - cbn in Hcalls.
    destruct (la.call method this h) as [h1|e] eqn:Hcall; [|discriminate].
    rewrite bind_Ok in Hcalls.
    rewrite (IH _ _ Hcalls). by eapply call_other.
Qed.

End copy_facts.

(** C8. [copy()] gives the address of a new object, not that of the
    original, holding the original's value; the original and every other
    object are as they were.  After that no method called on the copy
    changes the original, and no method called on the original changes the
    copy, however many calls are made: this covers [add], [set], [zero] and
    assignment. *)
Theorem copy_is_independent (h : la.heap) (this : positive) (self : la.Scalar) :
  h !! this = Some self ->
  exists (s : positive) (h' : la.heap),
    la.copy this h = Ok (s, h')
    /\ s <> this /\ h !! s = None
    /\ h' !! s = Some {| la.value := la.value self |}
    /\ (forall p, p <> s -> h' !! p = h !! p)
    /\ (forall (methods : list (la.Scalar -> outcome la.Scalar)) h'',
          la.call_all methods s h' = Ok h'' -> h'' !! this = Some self)
    /\ (forall (methods : list (la.Scalar -> outcome la.Scalar)) h'',
          la.call_all methods this h' = Ok h'' ->
          h'' !! s = Some {| la.value := la.value self |}).
Proof.
  intros Hthis.
  pose proof (new_Scalar_fresh h) as Hfresh. cbn in Hfresh.
  assert (Hne : fresh (dom h) <> this) by congruence.
  eexists _, _. split; [by apply copy_Ok|].
  split; [done|]. split; [done|].
  split; [by rewrite lookup_insert_eq|].
  split; [by intros p Hp; rewrite lookup_insert_ne|].
  split.
  - intros methods h'' Hcalls.
    rewrite (call_all_other methods _ this (not_eq_sym Hne) _ _ Hcalls).
    by rewrite lookup_insert_ne.
  - intros methods h'' Hcalls.
    rewrite (call_all_other methods _ _ Hne _ _ Hcalls).
    by rewrite lookup_insert_eq.
Qed.

Lemma copy_is_independent_witness :
  exists (s : positive) (h' : la.heap),
    la.copy 1 {[ 1%positive := {| la.value := 2.5 |} ]} = Ok (s, h')
    /\ s <> 1%positive
    /\ ({[ 1%positive := {| la.value := 2.5 |} ]} : la.heap) !! s = None
    /\ h' !! s = Some {| la.value := la.value {| la.value := 2.5 |} |}
    /\ (forall p, p <> s ->
          h' !! p = ({[ 1%positive := {| la.value := 2.5 |} ]} : la.heap) !! p)
    /\ (forall (methods : list (la.Scalar -> outcome la.Scalar)) h'',
          la.call_all methods s h' = Ok h'' ->
          h'' !! 1%positive = Some {| la.value := 2.5 |})
    /\ (forall (methods : list (la.Scalar -> outcome la.Scalar)) h'',
          la.call_all methods 1%positive h' = Ok h'' ->
          h'' !! s = Some {| la.value := la.value {| la.value := 2.5 |} |}).
Proof.
  apply (copy_is_independent {[ 1%positive := {| la.value := 2.5 |} ]} 1
           {| la.value := 2.5 |}).
  reflexivity.
Defined.

(** * Properties of dolfin::fem::Form *)

Section form_facts.
Implicit Types (this : fem.Form) (name : string) (i : Z).

Lemma foldl_dofs (spaces : list fem.FunctionSpace) (num_entries : N) :
  foldl (fun num_entries V => num_entries * fem.max_element_dofs V)%N num_entries spaces
  = (num_entries * fem.product (fem.max_element_dofs <$> spaces))%N.
Proof.
  revert num_entries. induction spaces as [|V spaces IH]; intros num_entries; cbn.
  - by rewrite N.mul_1_r.
  - by rewrite IH, N.mul_assoc.
Qed.


Lemma builtin_name_at this (j : nat) :
  fem._coefficient_name_map this = None ->
  fem.get_coefficient_name (Z.of_nat j) this = fem.coefficient_names this !! j.
Proof.
  intros Hmap. unfold fem.get_coefficient_name. rewrite Hmap.
  rewrite decide_True by lia. by rewrite Nat2Z.id.
Qed.

(** Distinct names are what the round trip needs: if every position is
    found back from its name, no name is registered twice. *)
Lemma round_trip_distinct_names this :
  fem._coefficient_index_map this = None ->
  fem._coefficient_name_map this = None ->
  (forall i n, fem.get_coefficient_name i this = Some n ->
               fem.get_coefficient_index n this = Some i) ->
  NoDup (fem.coefficient_names this).
Proof.
  intros Hindex Hname Hround. apply NoDup_alt. intros j1 j2 n H1 H2.
  rewrite <- (builtin_name_at this j1 Hname) in H1.
  rewrite <- (builtin_name_at this j2 Hname) in H2.
  apply Hround in H1, H2. rewrite H1 in H2. injection H2. lia.
Qed.

End form_facts.

(** C2. [max_element_tensor_size()] is the product, over the argument
    slots, of the maximum local dof counts of the argument spaces: 1 for a
    form of rank 0, and 12 for a form of rank 2 whose spaces have counts 3
    and 4. *)
Theorem max_element_tensor_size_is_product (this : fem.Form) :
  fem.max_element_tensor_size this
    = fem.product (fem.max_element_dofs <$> fem._function_spaces this)
  /\ (fem.rank this = 0%nat -> fem.max_element_tensor_size this = 1%N)
  /\ (fem.max_element_dofs <$> fem._function_spaces this = [3; 4]%N ->
        fem.rank this = 2%nat /\ fem.max_element_tensor_size this = 12%N).
Proof.
  assert (Hprod : fem.max_element_tensor_size this
    = fem.product (fem.max_element_dofs <$> fem._function_spaces this)).
  { unfold fem.max_element_tensor_size. rewrite foldl_dofs. apply N.mul_1_l. }
  split; [exact Hprod|]. split.
  - unfold fem.rank. intros Hrank. rewrite Hprod.
    by destruct (fem._function_spaces this).
  - intros Hdofs. split.
    + unfold fem.rank. by rewrite <- (length_fmap fem.max_element_dofs), Hdofs.
    + by rewrite Hprod, Hdofs.
Qed.

Lemma max_element_tensor_size_is_product_witness :
  fem.max_element_tensor_size
    {| fem._coefficents := []; fem._function_spaces := [];
       fem._coefficient_index_map := None; fem._coefficient_name_map := None |} = 1%N
  /\ fem.max_element_tensor_size
       {| fem._coefficents := [];
          fem._function_spaces :=
            [ {| fem.max_element_dofs := 3 |}; {| fem.max_element_dofs := 4 |} ];
          fem._coefficient_index_map := None;
          fem._coefficient_name_map := None |} = 12%N.
Proof.
  split.
  - apply (proj1 (proj2 (max_element_tensor_size_is_product
      {| fem._coefficents := []; fem._function_spaces := [];
         fem._coefficient_index_map := None; fem._coefficient_name_map := None |}))).
    reflexivity.
  - apply (proj2 (proj2 (max_element_tensor_size_is_product
      {| fem._coefficents := [];
         fem._function_spaces :=
           [ {| fem.max_element_dofs := 3 |}; {| fem.max_element_dofs := 4 |} ];
         fem._coefficient_index_map := None;
         fem._coefficient_name_map := None |}))).
    reflexivity.
Defined.




(** A name registered at two positions defeats every name-to-index map,
    the built-in one and any resolver alike: a map gives the name one
    index, which cannot be both positions. *)
Lemma shared_name_defeats_every_lookup (this : fem.Form) (n : string) (i j : Z) :
  i <> j ->
  fem.get_coefficient_name i this = Some n ->
  fem.get_coefficient_name j this = Some n ->
  ~ (fem.get_coefficient_index n this = Some i
     /\ fem.get_coefficient_index n this = Some j)
  /\ forall resolver : string -> Z,
       ~ (fem.get_coefficient_index n
            (fem.set_coefficient_index_to_name_map resolver this) = Some i
          /\ fem.get_coefficient_index n
               (fem.set_coefficient_index_to_name_map resolver this) = Some j).
Proof.
  intros Hij _ _. split.
  - intros [Hi Hj]. congruence.
  - intros resolver [Hi Hj]. congruence.
Qed.

(** * Further properties of dolfin::Scalar *)

Section block_facts.
Implicit Types (this other : la.Scalar) (block : pointer float).
Implicit Types (num_rows : pointer N) (rows : pointer (pointer N)).

Lemma Scalar_eta this : {| la.value := la.value this |} = this.
Proof. by destruct this. Qed.

(** A failed accumulator stays failed through the rest of a run of [add]
    calls. *)
Lemma add_run_Fail (blocks : list (pointer float * pointer N * pointer (pointer N)))
    (e : failure) :
  foldl (fun acc '(block, num_rows, rows) =>
           self ← acc; la.add block num_rows rows self) (Fail e) blocks
  = Fail e.
Proof.
  induction blocks as [|[[block num_rows] rows] blocks IH]; [reflexivity|].
  cbn [foldl]. exact IH.
Qed.

Lemma add_all_cons block num_rows rows blocks this :
  la.add_all ((block, num_rows, rows) :: blocks) this
  = la.add block num_rows rows this ≫= la.add_all blocks.
Proof.
  unfold la.add_all. cbn [foldl]. rewrite bind_Ok.
  destruct (la.add block num_rows rows this) as [this'|e]; [reflexivity|].
  apply add_run_Fail.
Qed.

Lemma add_Ok_inv block num_rows rows this this' :
  la.add block num_rows rows this = Ok this' ->
  exists b, deref0 block = Ok b /\ this' = {| la.value := la.value this + b |}.
Proof.
  unfold la.add. intros Hadd.
  destruct block as [[|b cells]|]; try discriminate.
  exists b. split; [reflexivity|]. cbn in Hadd. by injection Hadd as <-.
Qed.

End block_facts.

(** X1. Writing then reading: after [set] with a block whose first cell
    reads [b], the tensor is what assigning [b] to any [Scalar] gives, the
    previous value being forgotten; [getval] and the cast return [b], and
    [get] writes [b] to the first cell of the block it is handed and leaves
    the other cells as they are. *)
Theorem set_then_get (block : pointer float) (num_rows num_rows' : pointer N)
    (rows rows' : pointer (pointer N)) (this other : la.Scalar)
    (b x : float) (rest : list float) :
  deref0 block = Ok b ->
  exists this',
    la.set block num_rows rows this = Ok this'
    /\ this' = la.assign b other
    /\ la.getval this' = b /\ la.to_double this' = b
    /\ la.get (Some (x :: rest)) num_rows' rows' this' = Ok (b :: rest).
Proof.
  intros Hb. exists {| la.value := b |}.
  unfold la.set. rewrite Hb. repeat split.
Qed.

Lemma set_then_get_witness :
  exists this',
    la.set (Some [2.5; 8]) None None {| la.value := 1 |} = Ok this'
    /\ this' = la.assign 2.5 {| la.value := 4 |}
    /\ la.getval this' = 2.5 /\ la.to_double this' = 2.5
    /\ la.get (Some [0; 7]) None None this' = Ok [2.5; 7].
Proof.
  apply (set_then_get (Some [2.5; 8]) None None None None
           {| la.value := 1 |} {| la.value := 4 |} 2.5 0 [7]).
  reflexivity.
Defined.

(** X2. Reading then writing: the block [get] has filled has the length of
    the block it was handed, differs from it in the first cell at most, and
    restores the tensor it was read from when it is given to [set] on any
    [Scalar]. *)
Theorem get_then_set (block : pointer float) (num_rows num_rows' : pointer N)
    (rows rows' : pointer (pointer N)) (this other : la.Scalar)
    (cells : list float) :
  la.get block num_rows rows this = Ok cells ->
  la.set (Some cells) num_rows' rows' other = Ok this
  /\ exists x rest, block = Some (x :: rest) /\ cells = la.value this :: rest.
Proof.
  unfold la.get. intros Hget.
  destruct block as [[|x rest]|]; try discriminate.
  cbn in Hget. injection Hget as <-. split.
  - cbn. by rewrite Scalar_eta.
  - by exists x, rest.
Qed.

Lemma get_then_set_witness :
  la.set (Some [1.5; 7]) None None {| la.value := 4 |} = Ok {| la.value := 1.5 |}
  /\ exists x rest, Some [0; 7] = Some (x :: rest)
                    /\ [1.5; 7] = la.value {| la.value := 1.5 |} :: rest.
Proof.
  apply (get_then_set (Some [0; 7]) None None None None
           {| la.value := 1.5 |} {| la.value := 4 |} [1.5; 7]).
  reflexivity.
Defined.

(** X3. The three ways of resetting agree: [resize] with rank 0, [init]
    and [zero()] each leave a tensor equal to a newly constructed [Scalar],
    whatever its value was and whatever dimensions or pattern they are
    given (a null dimension array included); a run of [add] calls after
    any of them gives what it gives on a new [Scalar]. *)
Theorem reset_is_new {Pattern : Type} (sparsity_pattern : Pattern)
    (dims : pointer N) (this : la.Scalar)
    (blocks : list (pointer float * pointer N * pointer (pointer N))) :
  la.resize (la.rank this) dims this = Ok la.Scalar_new
  /\ la.init sparsity_pattern this = la.Scalar_new
  /\ la.zero this = la.Scalar_new
  /\ (la.resize 0 dims this ≫= la.add_all blocks) = la.add_all blocks la.Scalar_new
  /\ la.add_all blocks (la.init sparsity_pattern this) = la.add_all blocks la.Scalar_new
  /\ la.add_all blocks (la.zero this) = la.add_all blocks la.Scalar_new.
Proof. repeat split. Qed.

(** X4. Which blocks [add] accepts: each overload fails on its assertion
    exactly when the block is the null pointer, and succeeds exactly when
    the block has a first cell to read.  [set] and [get] have no such
    assertion: a null block reaches the dereference. *)
Theorem add_guards_null_block (block : pointer float) (num_rows : pointer N)
    (rows : pointer (pointer N)) (rows_p : list (pointer N))
    (rows_v : list (list N)) (this : la.Scalar) :
  (la.add block num_rows rows this = Fail assertion_failed <-> block = None)
  /\ (la.add_vector_of_pointers block rows_p this = Fail assertion_failed
      <-> block = None)
  /\ (la.add_vector_of_vectors block rows_v this = Fail assertion_failed
      <-> block = None)
  /\ ((exists this', la.add block num_rows rows this = Ok this')
      <-> exists b, deref0 block = Ok b)
  /\ la.set None num_rows rows this = Fail null_dereference
  /\ la.get None num_rows rows this = Fail null_dereference.
Proof.
  repeat split; try (by destruct block as [[|b cells]|]).
  - intros [this' Hadd]. apply add_Ok_inv in Hadd as (b & Hb & _). by exists b.
  - intros [b Hb]. eexists. by apply add_reads_first.
Qed.

(** X5. A run of [add] calls composes: the run over [blocks1 ++ blocks2] is
    the run over [blocks1] followed, if it succeeds, by the run over
    [blocks2]; and a run succeeds exactly when every block of it has a first
    cell to read. *)
Theorem add_all_composes
    (blocks1 blocks2 : list (pointer float * pointer N * pointer (pointer N)))
    (this : la.Scalar) :
  la.add_all (blocks1 ++ blocks2) this
    = la.add_all blocks1 this ≫= la.add_all blocks2
  /\ ((exists this', la.add_all blocks1 this = Ok this')
      <-> Forall (fun call => exists b, deref0 call.1.1 = Ok b) blocks1).
Proof.
  split.
  - revert this.
    induction blocks1 as [|[[block num_rows] rows] blocks1 IH]; intros this.
    + reflexivity.
    + cbn [app]. rewrite !add_all_cons.
      destruct (la.add block num_rows rows this) as [this'|e]; [|reflexivity].
      rewrite !bind_Ok. apply IH.
  - clear blocks2. revert this.
    induction blocks1 as [|[[block num_rows] rows] blocks1 IH]; intros this.
    + split; [constructor | by exists this].
    + rewrite add_all_cons, Forall_cons. cbn [fst]. split.
      * intros [this' Hrun].
        destruct (la.add block num_rows rows this) as [this1|e] eqn:Hadd;
          [|discriminate].
        apply add_Ok_inv in Hadd as (b & Hb & _).
        split; [by exists b|]. apply (IH this1). by exists this'.
      * intros [[b Hb] Hrest].
        rewrite (add_reads_first _ _ _ _ _ Hb), bind_Ok. by apply IH.
Qed.

Lemma add_guards_null_block_witness :
  la.add None (Some [1%N]) None {| la.value := 1 |} = Fail assertion_failed
  /\ exists this', la.add (Some [2]) None None {| la.value := 1 |} = Ok this'.
Proof.
  split.
  - apply (proj2 (proj1 (add_guards_null_block None (Some [1%N]) None [] []
                           {| la.value := 1 |}))).
    reflexivity.
  - apply (proj2 (proj1 (proj2 (proj2 (proj2
             (add_guards_null_block (Some [2]) None None [] []
                {| la.value := 1 |})))))).
    exists 2. reflexivity.
Defined.

Lemma add_all_composes_witness :
  exists this',
    la.add_all [ (Some [2], None, None); (Some [3; 5], None, None) ]
               {| la.value := 1 |} = Ok this'.
Proof.
  apply (proj2 (proj2 (add_all_composes
           [ (Some [2], None, None); (Some [3; 5], None, None) ] []
           {| la.value := 1 |}))).
  repeat constructor; eexists; reflexivity.
Defined.

Section group_facts.
Implicit Types (this : la.Scalar) (group : list la.Scalar).

Lemma fmap_const_length {A B : Type} (b : B) (l : list A) :
  (fun _ => b) <$> l = replicate (length l) b.
Proof. induction l as [|a l IH]; [reflexivity | cbn; by rewrite IH]. Qed.

Lemma fmap_Ok_const {A B : Type} (b : B) (l : list A) :
  (fun _ => Ok b) <$> l = Ok <$> ((fun _ => b) <$> l).
Proof. induction l as [|a l IH]; [reflexivity | cbn; by rewrite IH]. Qed.

End group_facts.

(** X6. [apply] is not meant to be repeated: in a group of more than one
    process, where a first [apply] has left the sum [total] of the values
    on every process, a second [apply] gathers [P] copies of [total] and
    leaves their sum on every process; values [1.0] and [2.0] become [3.0]
    and then [6.0]. *)
Theorem apply_twice (modes modes' : nat -> string) (group : list la.Scalar) :
  1 < length group ->
  let total := accumulate (la.value <$> group) 0 in
  let group' := (fun _ => {| la.value := total |}) <$> group in
  la.apply_all modes group = Ok <$> group'
  /\ la.apply_all modes' group'
     = (fun _ => Ok {| la.value := accumulate (replicate (length group) total) 0 |})
       <$> group.
Proof.
  intros HP total group'. split.
  - rewrite apply_all_many by done. apply fmap_Ok_const.
  - rewrite apply_all_many by (unfold group'; by rewrite length_fmap).
    unfold group'. rewrite !fmap_const_length, length_replicate.
    by rewrite fmap_replicate.
Qed.

Lemma apply_twice_witness :
  la.apply_all (fun _ => "add") [ {| la.value := 1 |}; {| la.value := 2 |} ]
  = [ Ok {| la.value := 3 |}; Ok {| la.value := 3 |} ]
  /\ la.apply_all (fun _ => "add") [ {| la.value := 3 |}; {| la.value := 3 |} ]
     = [ Ok {| la.value := 6 |}; Ok {| la.value := 6 |} ].
Proof.
  apply (apply_twice (fun _ => "add") (fun _ => "add")
           [ {| la.value := 1 |}; {| la.value := 2 |} ]).
  simpl. lia.
Defined.

(** X7. What [apply] hands to the gather: in a group of [P > 1] processes,
    rank [r < P] passes a buffer of [P] cells holding its value in cell [r]
    and [0.0] in every other cell, and its new value is the sum, from
    [0.0], of whatever buffer the gather gives back. *)
Theorem apply_passes_own_cell (mpi : MPI) (mode : string) (this : la.Scalar) :
  1 < num_processes mpi ->
  process_number mpi < num_processes mpi ->
  let values := la.local_buffer (num_processes mpi) (process_number mpi) this in
  la.apply mpi mode this = Ok {| la.value := accumulate (gather mpi values) 0 |}
  /\ length values = num_processes mpi
  /\ values !! process_number mpi = Some (la.value this)
  /\ (forall i, i < num_processes mpi -> i <> process_number mpi ->
        values !! i = Some 0).
Proof.
  intros HP Hr values. split; [|split; [|split]].
  - unfold la.apply, vector_store. rewrite decide_True by done.
    rewrite length_replicate, decide_True by done. reflexivity.
  - unfold values, la.local_buffer. by rewrite length_insert, length_replicate.
  - by apply local_buffer_own.
  - intros i Hi Hne. unfold values, la.local_buffer.
    rewrite list_lookup_insert_ne by done. by apply lookup_replicate_2.
Qed.

Lemma apply_passes_own_cell_witness :
  let mpi := {| num_processes := 3; process_number := 1;
                gather := fun values => [5; 6; 7] |} in
  let values := la.local_buffer 3 1 {| la.value := 6 |} in
  la.apply mpi "add" {| la.value := 6 |}
  = Ok {| la.value := accumulate (gather mpi values) 0 |}
  /\ length values = 3%nat
  /\ values !! 1%nat = Some (la.value {| la.value := 6 |})
  /\ (forall i, i < 3 -> i <> 1%nat -> values !! i = Some 0).
Proof.
  apply (apply_passes_own_cell
           {| num_processes := 3; process_number := 1;
              gather := fun values => [5; 6; 7] |} "add" {| la.value := 6 |});
    simpl; lia.
Defined.

(** X8. The order of the [add] calls matters: binary64 addition is not
    associative, and there are two runs of [add] over the same blocks, in
    different orders, that leave different values on a new [Scalar]. *)
Theorem add_order_matters :
  exists (blocks blocks' : list (pointer float * pointer N * pointer (pointer N)))
         (this this' : la.Scalar),
    blocks ≡ₚ blocks'
    /\ la.add_all blocks la.Scalar_new = Ok this
    /\ la.add_all blocks' la.Scalar_new = Ok this'
    /\ this <> this'.
Proof.
  exists [ (Some [1e16], None, None); (Some [1], None, None);
           (Some [-1e16], None, None) ],
         [ (Some [1e16], None, None); (Some [-1e16], None, None);
           (Some [1], None, None) ],
         {| la.value := 0 |}, {| la.value := 1 |}.
  split; [apply perm_skip, perm_swap|].
  split; [reflexivity|]. split; [reflexivity|].
  intros Heq. apply (f_equal (fun s => PrimFloat.eqb (la.value s) 0)) in Heq.
  vm_compute in Heq. discriminate.
Qed.

(** X9. The assignment of values to ranks matters: there are two groups
    of three processes holding the same values, on different ranks, in
    which [apply] leaves different sums on every process. *)
Theorem apply_rank_order_matters :
  exists (group group' : list la.Scalar) (this this' : la.Scalar),
    group ≡ₚ group'
    /\ length group = 3%nat
    /\ la.apply_all (fun _ => "add") group = [Ok this; Ok this; Ok this]
    /\ la.apply_all (fun _ => "add") group' = [Ok this'; Ok this'; Ok this']
    /\ this <> this'.
Proof.
  exists [ {| la.value := 1e16 |}; {| la.value := 1 |}; {| la.value := -1e16 |} ],
         [ {| la.value := 1e16 |}; {| la.value := -1e16 |}; {| la.value := 1 |} ],
         {| la.value := 0 |}, {| la.value := 1 |}.
  split; [apply perm_skip, perm_swap|].
  split; [reflexivity|].
  split; [by rewrite apply_all_many by (cbn; lia)|].
  split; [by rewrite apply_all_many by (cbn; lia)|].
  intros Heq. apply (f_equal (fun s => PrimFloat.eqb (la.value s) 0)) in Heq.
  vm_compute in Heq. discriminate.
Qed.

(** X10. Copies of copies: copying an object and then copying the copy
    gives three objects at three different addresses, all holding the
    original's value, and adds exactly the two new addresses to the heap. *)
Theorem copy_of_copy (h : la.heap) (this : positive) (self : la.Scalar) :
  h !! this = Some self ->
  exists (s1 s2 : positive) (h1 h2 : la.heap),
    la.copy this h = Ok (s1, h1)
    /\ la.copy s1 h1 = Ok (s2, h2)
    /\ s1 <> this /\ s2 <> this /\ s2 <> s1
    /\ h2 !! this = Some self
    /\ h2 !! s1 = Some {| la.value := la.value self |}
    /\ h2 !! s2 = Some {| la.value := la.value self |}
    /\ dom h2 = {[s1; s2]} ∪ dom h.
Proof.
  intros Hthis.
  set (s1 := fresh (dom h)).
  set (h1 := <[s1 := {| la.value := la.value self |}]> h).
  set (s2 := fresh (dom h1)).
  assert (H1 : h !! s1 = None) by apply (new_Scalar_fresh h).
  assert (H2 : h1 !! s2 = None) by apply (new_Scalar_fresh h1).
  assert (Hs1 : h1 !! s1 = Some {| la.value := la.value self |})
    by apply lookup_insert_eq.
  assert (Hne1 : s1 <> this) by congruence.
  assert (Hne21 : s2 <> s1) by congruence.
  assert (Hthis1 : h1 !! this = Some self)
    by (unfold h1; by rewrite lookup_insert_ne).
  assert (Hne2 : s2 <> this) by congruence.
  exists s1, s2, h1, (<[s2 := {| la.value := la.value self |}]> h1).
  split; [by apply copy_Ok|].
  split; [by rewrite (copy_Ok h1 s1 _ Hs1)|].
  repeat split; try done.
  - by rewrite lookup_insert_ne.
  - by rewrite lookup_insert_ne.
  - by rewrite lookup_insert_eq.
  - unfold h1. rewrite !dom_insert_L.
    by rewrite (assoc_L (∪)), (comm_L (∪) {[s2]} {[s1]}).
Qed.

Lemma copy_of_copy_witness :
  exists (s1 s2 : positive) (h1 h2 : la.heap),
    la.copy 1 {[ 1%positive := {| la.value := 2.5 |} ]} = Ok (s1, h1)
    /\ la.copy s1 h1 = Ok (s2, h2)
    /\ s1 <> 1%positive /\ s2 <> 1%positive /\ s2 <> s1
    /\ h2 !! 1%positive = Some {| la.value := 2.5 |}
    /\ h2 !! s1 = Some {| la.value := la.value {| la.value := 2.5 |} |}
    /\ h2 !! s2 = Some {| la.value := la.value {| la.value := 2.5 |} |}
    /\ dom h2 = {[s1; s2]} ∪ dom ({[ 1%positive := {| la.value := 2.5 |} ]} : la.heap).
Proof.
  apply (copy_of_copy {[ 1%positive := {| la.value := 2.5 |} ]} 1
           {| la.value := 2.5 |}).
  reflexivity.
Defined.
